(** * OpenDAL [raw] module

    The documentation side bar of [opendal::raw] (file
    [docs/rust/opendal/raw/sidebar-items.js]) and the Accessor / Layer
    composition protocol whose items it indexes.

    The file has two parts.  The first embeds the script itself: a single
    assignment of a literal record to [window.SIDEBAR_ITEMS].  The second
    models the protocol behind the indexed items (operations, capability
    descriptors, layered accessors, batch execution); the Rust sources of
    those items are not part of the repository snapshot, so that part is
    written from the design document and says so at every definition. *)

From Stdlib Require Import Ascii.
From stdpp Require Import gmap strings list sorting.

Local Open Scope string_scope.

(* set_solver clears hypotheses by name and warns when one is already gone. *)
#[local] Set Warnings "-clear-no-such-hyp".

(** ** JavaScript values

    The script only builds strings, arrays and object literals.  An object
    literal is kept as the list of its properties in source order. *)

Local Unset Elimination Schemes.
Inductive JsValue :=
| JsString (s : string)
| JsArray (items : list JsValue)
| JsObject (props : list (string * JsValue)).
Local Set Elimination Schemes.

(** Own-property read on an object literal: the value the literal itself
    gives to key [k] (what [Object.hasOwn(o, k) ? o[k] : undefined]
    computes); when a key is written twice the later one wins.  Properties
    inherited from [Object.prototype] ([toString], [constructor], ...) are
    not own properties and are not modelled, nor are the index and
    [length] properties of arrays: the function is only used on the
    record. *)
Fixpoint get_prop_in (k : string) (props : list (string * JsValue)) : option JsValue :=
  match props with
  | [] => None
  | (k', v) :: rest =>
      match get_prop_in k rest with
      | Some v' => Some v'
      | None => if decide (k = k') then Some v else None
      end
  end.

Definition get_prop (k : string) (v : JsValue) : option JsValue :=
  match v with
  | JsObject props => get_prop_in k props
  | _ => None
  end.

Definition object_props (v : JsValue) : list (string * JsValue) :=
  match v with
  | JsObject props => props
  | _ => []
  end.

(** The global object: a finite map from property names to values. *)
Abbreviation Window := (gmap string JsValue).

(** ** The script

    [window.SIDEBAR_ITEMS = {...};] -- the right-hand side, verbatim. *)

Definition SIDEBAR_ITEMS : JsValue :=
  JsObject [
    ("constant", JsArray [
      JsArray [JsString "VERSION"; JsString "VERSION is the compiled version of OpenDAL."]]);
    ("enum", JsArray [
      JsArray [JsString "AccessorCapability"; JsString "AccessorCapability describes accessor’s advanced capability."];
      JsArray [JsString "AccessorHint"; JsString "AccessorHint describes accessor’s hint."];
      JsArray [JsString "AsyncBody"; JsString "Body used in async HTTP requests."];
      JsArray [JsString "BatchedReply"; JsString "Batch results of `batch` operations."];
      JsArray [JsString "Operation"; JsString "Operation is the name for APIs in `Accessor`."]]);
    ("fn", JsArray [
      JsArray [JsString "build_abs_path"; JsString "build_abs_path will build an absolute path with root."];
      JsArray [JsString "build_header_value"; JsString "Build header value from given string."];
      JsArray [JsString "build_rel_path"; JsString "build_rel_path will build a relative path towards root."];
      JsArray [JsString "build_rooted_abs_path"; JsString "build_rooted_abs_path will build an absolute path with root."];
      JsArray [JsString "format_authorization_by_basic"; JsString "format authorization header by basic auth."];
      JsArray [JsString "format_authorization_by_bearer"; JsString "format authorization header by bearer token."];
      JsArray [JsString "format_content_md5"; JsString "format content md5 header by given input."];
      JsArray [JsString "get_basename"; JsString "Get basename from path."];
      JsArray [JsString "get_parent"; JsString "Get parent from path."];
      JsArray [JsString "new_json_deserialize_error"; JsString "Parse json deserialize error into opendal::Error."];
      JsArray [JsString "new_json_serialize_error"; JsString "Parse json serialize error into opendal::Error."];
      JsArray [JsString "new_request_build_error"; JsString "Create a new error happened during building request."];
      JsArray [JsString "new_request_credential_error"; JsString "Create a new error happened during signing request."];
      JsArray [JsString "new_request_sign_error"; JsString "Create a new error happened during signing request."];
      JsArray [JsString "new_xml_deserialize_error"; JsString "Parse xml deserialize error into opendal::Error."];
      JsArray [JsString "normalize_path"; JsString "Make sure all operation are constructed by normalized path:"];
      JsArray [JsString "normalize_root"; JsString "Make sure root is normalized to style like `/abc/def/`."];
      JsArray [JsString "parse_content_disposition"; JsString "Parse Content-Disposition for header map"];
      JsArray [JsString "parse_content_length"; JsString "Parse content length from header map."];
      JsArray [JsString "parse_content_md5"; JsString "Parse content md5 from header map."];
      JsArray [JsString "parse_content_range"; JsString "Parse content range from header map."];
      JsArray [JsString "parse_content_type"; JsString "Parse content type from header map."];
      JsArray [JsString "parse_datetime_from_from_timestamp_millis"; JsString "parse datetime from given timestamp_millis"];
      JsArray [JsString "parse_datetime_from_rfc2822"; JsString "Parse dateimt from rfc2822."];
      JsArray [JsString "parse_datetime_from_rfc3339"; JsString "Parse dateimt from rfc3339."];
      JsArray [JsString "parse_error_response"; JsString "parse_error_response will parse response into `ErrorResponse`."];
      JsArray [JsString "parse_etag"; JsString "Parse etag from header map."];
      JsArray [JsString "parse_into_metadata"; JsString "parse_into_metadata will parse standards http headers into Metadata."];
      JsArray [JsString "parse_last_modified"; JsString "Parse last modified from header map."];
      JsArray [JsString "parse_location"; JsString "Parse redirect location from header map"];
      JsArray [JsString "percent_encode_path"; JsString "percent_encode_path will do percent encoding for http encode path."];
      JsArray [JsString "validate_path"; JsString "Validate given path is match with given EntryMode."]]);
    ("mod", JsArray [
      JsArray [JsString "adapters"; JsString "Providing adapters and its implementations."];
      JsArray [JsString "oio"; JsString "`oio` provides OpenDAL’s raw traits and types that opendal returns as output."]]);
    ("struct", JsArray [
      JsArray [JsString "AccessorInfo"; JsString "Metadata for accessor, users can use this metadata to get information of underlying backend."];
      JsArray [JsString "BytesContentRange"; JsString "BytesContentRange is the content range of bytes."];
      JsArray [JsString "BytesRange"; JsString "BytesRange(offset, size) carries a range of content."];
      JsArray [JsString "ErrorResponse"; JsString "ErrorResponse carries HTTP status code, headers and body."];
      JsArray [JsString "HttpClient"; JsString "HttpClient that used across opendal."];
      JsArray [JsString "IncomingAsyncBody"; JsString "IncomingAsyncBody carries the content returned by remote servers."];
      JsArray [JsString "PresignedRequest"; JsString "PresignedRequest is a presigned request return by `presign`."];
      JsArray [JsString "RpBatch"; JsString "Reply for `batch` operation."];
      JsArray [JsString "RpCopy"; JsString "Reply for `copy` operation."];
      JsArray [JsString "RpCreate"; JsString "Reply for `create` operation"];
      JsArray [JsString "RpDelete"; JsString "Reply for `delete` operation"];
      JsArray [JsString "RpList"; JsString "Reply for `list` operation."];
      JsArray [JsString "RpPresign"; JsString "Reply for `presign` operation."];
      JsArray [JsString "RpRead"; JsString "Reply for `read` operation."];
      JsArray [JsString "RpRename"; JsString "Reply for `rename` operation."];
      JsArray [JsString "RpScan"; JsString "Reply for `scan` operation."];
      JsArray [JsString "RpStat"; JsString "Reply for `stat` operation."];
      JsArray [JsString "RpWrite"; JsString "Reply for `write` operation."]]);
    ("trait", JsArray [
      JsArray [JsString "Accessor"; JsString "Underlying trait of all backends for implementors."];
      JsArray [JsString "Layer"; JsString "Layer is used to intercept the operations on the underlying storage."];
      JsArray [JsString "LayeredAccessor"; JsString "LayeredAccessor is layered accessor that forward all not implemented method to inner."]]);
    ("type", JsArray [
      JsArray [JsString "FusedAccessor"; JsString "FusedAccessor is the type erased accessor with `Box<dyn Read>`."]])
  ].

(** Evaluating the script: one property write on [window]. *)
Definition script (window : Window) : Window :=
  <["SIDEBAR_ITEMS" := SIDEBAR_ITEMS]> window.

(** ** Reading the record

    rustdoc's side bar reads each category as an array of
    [[name, description]] pairs. *)

Definition as_entry (v : JsValue) : option (string * string) :=
  match v with
  | JsArray [JsString name; JsString desc] => Some (name, desc)
  | _ => None
  end.

Definition as_entries (v : JsValue) : option (list (string * string)) :=
  match v with
  | JsArray items => mapM as_entry items
  | _ => None
  end.

Definition category (c : string) : list (string * string) :=
  default [] (get_prop c SIDEBAR_ITEMS ≫= as_entries).

Definition names (c : string) : list string := (category c).*1.

(** Lexicographic order on strings, by character code (for the ASCII names
    of the record this is also JavaScript's [<] on strings). *)
Definition string_lt (a b : string) : Prop := String.compare a b = Lt.

(** A well-formed category: its value is an array of pairs of strings,
    every name is nonempty, names are pairwise distinct and ascending. *)
Definition well_formed_category (v : JsValue) : Prop :=
  ∃ es, as_entries v = Some es
        ∧ Forall (λ e, e.1 ≠ "") es
        ∧ NoDup es.*1
        ∧ Sorted string_lt es.*1.

(** ** Operations and their reply structs

    Modelled from the spec: the variants of the [Operation] enum.  The side
    bar lists the enum ([Operation], "the name for APIs in `Accessor`") but
    not its variants; the design document fixes them as the ten tags below. *)
Inductive Operation :=
| Read | Write | Stat | Delete | List | Scan | Copy | Rename | Presign | Batch.

Definition all_operations : list Operation :=
  [Read; Write; Stat; Delete; List; Scan; Copy; Rename; Presign; Batch].

Definition operation_name (o : Operation) : string :=
  match o with
  | Read => "Read" | Write => "Write" | Stat => "Stat" | Delete => "Delete"
  | List => "List" | Scan => "Scan" | Copy => "Copy" | Rename => "Rename"
  | Presign => "Presign" | Batch => "Batch"
  end.

(** A reply struct is named for its operation: [Rp] followed by the tag. *)
Definition reply_struct (o : Operation) : string := "Rp" +:+ operation_name o.

(** The reply structs the module declares: the entries of the [struct]
    category whose name begins with [Rp]. *)
Definition is_reply_name (n : string) : bool := String.prefix "Rp" n.

Definition reply_entries : list (string * string) :=
  filter (λ e, is_reply_name e.1) (category "struct").

Definition reply_structs : list string := reply_entries.*1.

(** Every reply struct is described as "Reply for `op` operation": the
    operation a description names is the text between its first two
    back-quotes. *)
Fixpoint until_backquote (s : string) : option string :=
  match s with
  | EmptyString => None
  | String c s' =>
      if decide (c = "`"%char) then Some EmptyString
      else String c <$> until_backquote s'
  end.

Fixpoint described_operation (desc : string) : option string :=
  match desc with
  | EmptyString => None
  | String c rest =>
      if decide (c = "`"%char) then until_backquote rest
      else described_operation rest
  end.

(** The method name of an operation: its tag in lower case. *)
Definition lower_ascii (c : ascii) : ascii :=
  let n := Ascii.nat_of_ascii c in
  if decide (65 ≤ n ≤ 90)%nat then Ascii.ascii_of_nat (n + 32) else c.

Fixpoint lower (s : string) : string :=
  match s with
  | EmptyString => EmptyString
  | String c s' => String (lower_ascii c) (lower s')
  end.

Definition method_name (o : Operation) : string := lower (operation_name o).

#[global] Instance string_lt_dec : RelDecision string_lt.
Proof. intros a b. unfold string_lt. apply _. Defined.

#[global] Instance Operation_eq_dec : EqDecision Operation.
Proof. solve_decision. Defined.

(** ** The items of the record, all categories together *)

(** Every item of the record, with its category: the entries of each
    category's array, categories in source order. *)
Definition all_items : list (string * (string * string)) :=
  kv ← object_props SIDEBAR_ITEMS;
  (λ e, (kv.1, e)) <$> default [] (as_entries kv.2).

(** The characters of a Rust identifier: ASCII letters, digits and the
    underscore, the first one not a digit. *)
Definition is_letter (c : ascii) : bool :=
  let n := Ascii.nat_of_ascii c in
  bool_decide (65 ≤ n ≤ 90)%nat || bool_decide (97 ≤ n ≤ 122)%nat.

Definition is_digit (c : ascii) : bool :=
  let n := Ascii.nat_of_ascii c in bool_decide (48 ≤ n ≤ 57)%nat.

Definition is_ident_start (c : ascii) : bool :=
  is_letter c || bool_decide (c = "_"%char).

Definition is_ident_char (c : ascii) : bool :=
  is_ident_start c || is_digit c.

Fixpoint all_chars (p : ascii → bool) (s : string) : bool :=
  match s with
  | EmptyString => true
  | String c s' => p c && all_chars p s'
  end.

Definition is_identifier (s : string) : bool :=
  match s with
  | EmptyString => false
  | String c s' => is_ident_start c && all_chars is_ident_char s'
  end.

(** * The Accessor / Layer composition protocol

    The side bar indexes the traits [Accessor], [Layer] and
    [LayeredAccessor], the enums [Operation], [AccessorCapability] and
    [BatchedReply], the struct [AccessorInfo] and the reply structs; their
    Rust sources are not in the repository snapshot.  The definitions below
    follow the design document, section by section. *)

Definition Path : Type := string.

(** ** Errors *)

(** Modelled from the spec: the closed kind set of section 7 (the error
    type itself, [opendal::Error], is not among the sources). *)
Inductive ErrorKind :=
| NotFound | AlreadyExists | PermissionDenied | InvalidArgument
| Unsupported | BackendUnavailable | Cancelled | Aggregate.

(** Modelled from the spec: a failure carries its kind and a
    human-readable cause (section 4.6). *)
Record Error := { kind : ErrorKind; message : string }.

Inductive Result (A : Type) :=
| Ok (a : A)
| Err (e : Error).
Arguments Ok {A} a.
Arguments Err {A} e.

(** ** Request arguments and replies (section 3) *)

Inductive EntryMode := FILE | DIR | UnknownMode.

(** Modelled from the spec: entity metadata of a Stat reply. *)
Record Metadata := {
  content_length : N;
  last_modified : option string;
  content_type : option string;
  etag : option string;
  mode : EntryMode }.

(** Modelled from the spec: Read takes an optional byte range and an
    optional metadata-only flag. *)
Record ReadArgs := { byte_range : option (N * N); metadata_only : bool }.

(** Modelled from the spec: Write takes a size hint and content metadata;
    [body] stands for the bytes the caller feeds to the write stream
    (the stream itself is an external collaborator). *)
Record WriteArgs := { size_hint : N; write_content_type : option string; body : string }.

(** Modelled from the spec: List and Scan take a recursion depth and a
    pagination cursor. *)
Record ListArgs := { depth : nat; cursor : option string }.

(** Modelled from the spec: Copy and Rename take a destination path. *)
Record MoveArgs := { destination : Path }.

Inductive PresignedOperation := PresignRead | PresignWrite.

(** Modelled from the spec: Presign takes an expiry duration and the
    intended sub-operation. *)
Record PresignArgs := { expire : N; presigned_operation : PresignedOperation }.

(** Modelled from the spec: the request descriptor a presign returns
    (method, URL, headers, expiry); [PresignedRequest] in the side bar. *)
Record PresignedRequest := {
  method : string;
  url : string;
  headers : list (string * string);
  expiry : N }.

(** Modelled from the spec: the reply structs.  Read carries metadata and
    a stream handle (here the bytes themselves); Write, Delete, Copy and
    Rename are acknowledgements with an optional etag; List and Scan carry
    (path, metadata) entries; Presign carries the request descriptor. *)
Record RpRead := { read_metadata : Metadata; read_stream : string }.
Record RpWrite := { write_etag : option string }.
Record RpStat := { stat_metadata : Metadata }.
Record RpDelete := { delete_etag : option string }.
Record RpList := { list_entries : list (Path * Metadata) }.
Record RpScan := { scan_entries : list (Path * Metadata) }.
Record RpCopy := { copy_etag : option string }.
Record RpRename := { rename_etag : option string }.
Record RpPresign := { presigned : PresignedRequest }.

(** Modelled from the spec: the argument and reply type of a
    sub-operation of a batch.  A sub-operation is a call of one of the nine
    single operations; a batch inside a batch has no arguments to give. *)
Definition SubArgs (o : Operation) : Type :=
  match o with
  | Read => ReadArgs
  | Write => WriteArgs
  | Stat => unit
  | Delete => unit
  | List => ListArgs
  | Scan => ListArgs
  | Copy => MoveArgs
  | Rename => MoveArgs
  | Presign => PresignArgs
  | Batch => Empty_set
  end.

Definition SubReply (o : Operation) : Type :=
  match o with
  | Read => RpRead
  | Write => RpWrite
  | Stat => RpStat
  | Delete => RpDelete
  | List => RpList
  | Scan => RpScan
  | Copy => RpCopy
  | Rename => RpRename
  | Presign => RpPresign
  | Batch => Empty_set
  end.

Record SubOp := {
  sub_operation : Operation;
  sub_path : Path;
  sub_args : SubArgs sub_operation }.

(** Modelled from the spec: the success reply of one sub-operation, the
    reply struct of its operation ([BatchedReply] in the side bar, "Batch
    results of `batch` operations"). *)
Inductive BatchedReply :=
| Replied (o : Operation) (r : SubReply o).

(** Modelled from the spec: the outcome of one sub-operation, a success
    reply or a classified error. *)
Definition Outcome : Type := Result BatchedReply.

(** Modelled from the spec: the Batch reply, the ordered sequence of
    per-sub-operation outcomes. *)
Record RpBatch := { results : list Outcome }.

(** Modelled from the spec: "for each Operation tag there is exactly one
    request-argument type and exactly one reply type" (section 4.1). *)
Definition Args (o : Operation) : Type :=
  match o with
  | Batch => list SubOp
  | (Read | Write | Stat | Delete | List | Scan | Copy | Rename | Presign) as k =>
      SubArgs k
  end.

Definition Reply (o : Operation) : Type :=
  match o with
  | Batch => RpBatch
  | (Read | Write | Stat | Delete | List | Scan | Copy | Rename | Presign) as k =>
      SubReply k
  end.

(** ** Capability descriptors (section 4.2) *)

#[global] Instance Operation_countable : Countable Operation.
Proof.
  refine (inj_countable'
    (λ o, match o with
          | Read => 0 | Write => 1 | Stat => 2 | Delete => 3 | List => 4
          | Scan => 5 | Copy => 6 | Rename => 7 | Presign => 8 | Batch => 9
          end)
    (λ n, match n with
          | 0 => Read | 1 => Write | 2 => Stat | 3 => Delete | 4 => List
          | 5 => Scan | 6 => Copy | 7 => Rename | 8 => Presign | _ => Batch
          end) _).
  by intros [].
Defined.

(** Modelled from the spec: the operation variants it names (read
    supports byte-range, write supports size hint, list supports pagination
    cursor). *)
Inductive Variant := ByteRange | SizeHint | PaginationCursor.

#[global] Instance Variant_eq_dec : EqDecision Variant.
Proof. solve_decision. Defined.

#[global] Instance Variant_countable : Countable Variant.
Proof.
  refine (inj_countable'
    (λ v, match v with ByteRange => 0 | SizeHint => 1 | PaginationCursor => 2 end)
    (λ n, match n with 0 => ByteRange | 1 => SizeHint | _ => PaginationCursor end) _).
  by intros [].
Defined.

(** Modelled from the spec: the capability descriptor ([AccessorCapability]
    and [AccessorInfo] in the side bar): the supported operations, the
    per-operation variant flags, the maximum-batch-size hint and the
    "presign supported" flag.  [implemented] records which operations the
    accessor implements itself rather than forwards: the merge policy is
    stated in terms of it. *)
Record Capability := {
  implemented : gset Operation;
  supported : gset Operation;
  variants : gset (Operation * Variant);
  max_batch_size : option N;
  presign_supported : bool }.

(** Modelled from the spec: [supports(operation)] and
    [variant_supported(operation, variant)] of section 4.2. *)
Definition supports (c : Capability) (o : Operation) : bool :=
  bool_decide (o ∈ supported c).

Definition variant_supported (c : Capability) (o : Operation) (v : Variant) : bool :=
  bool_decide ((o, v) ∈ variants c).

Definition implements (c : Capability) (o : Operation) : bool :=
  bool_decide (o ∈ implemented c).

(** Modelled from the spec: [merge(outer, inner)].  "For any operation the
    layer itself implements, the layer's own declared support wins; for any
    operation the layer does not implement (pure forwarding), the inner
    accessor's support is inherited unchanged."  The batch-size hint goes
    with Batch and the presign flag with Presign. *)
Definition merge (outer inner : Capability) : Capability :=
  {| implemented := implemented outer ∪ implemented inner;
     supported :=
       (supported outer ∩ implemented outer) ∪ (supported inner ∖ implemented outer);
     variants :=
       filter (λ ov, ov.1 ∈ implemented outer) (variants outer)
       ∪ filter (λ ov, ov.1 ∉ implemented outer) (variants inner);
     max_batch_size :=
       if decide (Batch ∈ implemented outer) then max_batch_size outer
       else max_batch_size inner;
     presign_supported :=
       if decide (Presign ∈ implemented outer) then presign_supported outer
       else presign_supported inner |}.

(** The descriptor of a layer that implements nothing. *)
Definition forwarding_only : Capability :=
  {| implemented := ∅; supported := ∅; variants := ∅;
     max_batch_size := None; presign_supported := false |}.

(** Modelled from the spec: the descriptor of a chain, "querying the chain
    incrementally one layer at a time": the layers' descriptors (outermost
    first) are merged over the backend's, innermost layer first. *)
Definition merge_chain (layers : list Capability) (backend : Capability) : Capability :=
  foldr merge backend layers.

(** The layers' descriptors merged among themselves, before any backend
    is known. *)
Definition merge_all (layers : list Capability) : Capability :=
  foldr merge forwarding_only layers.

(** ** Accessors and layers (sections 4.3 to 4.5) *)

Section Protocol.
Context {World : Type}.

(** Modelled from the spec: an operation method,
    [operation(path, request_args) -> Result<Reply, Error>].  It runs
    against the state of the backend (and of whatever the layers keep) and
    returns a reply or a classified error. *)
Definition Method (A : Type) : Type := World → Result A * World.

Definition Handler (o : Operation) : Type := Path → Args o → Method (Reply o).

(** Modelled from the spec: the Accessor contract, one method per
    operation, each with its own argument and reply type, and the
    descriptor computed at construction. *)
Record Accessor := {
  info : Capability;
  call : ∀ o : Operation, Handler o }.

(** Modelled from the spec: a layer is its declared capabilities and an
    override record, "a sparse mapping from Operation to replacement
    behavior".  A replacement receives the inner accessor, so that
    forwarding stays available to it as a primitive. *)
Record Layer := {
  declared : Capability;
  override : ∀ o : Operation, option (Accessor → Handler o) }.

Definition overridden (l : Layer) : gset Operation :=
  list_to_set (filter (λ o, is_Some (override l o)) all_operations).

(** The descriptor a layer merges in: what it declared, for the operations
    it overrides. *)
Definition layer_descriptor (l : Layer) : Capability :=
  {| implemented := overridden l;
     supported := supported (declared l);
     variants := variants (declared l);
     max_batch_size := max_batch_size (declared l);
     presign_supported := presign_supported (declared l) |}.

Definition outcome_of (o : Operation) (r : Result (SubReply o) * World) : Outcome * World :=
  match r with
  | (Ok reply, w) => (Ok (Replied o reply), w)
  | (Err e, w) => (Err e, w)
  end.

(** Modelled from the spec: one sub-operation, executed through the typed
    method of its own operation. *)
Definition exec_sub (methods : ∀ o, Handler o) (s : SubOp) : World → Outcome * World :=
  match s with
  | {| sub_operation := o; sub_path := p; sub_args := a |} =>
      match o return SubArgs o → World → Outcome * World with
      | Batch => λ a, match a with end
      | (Read | Write | Stat | Delete | List | Scan | Copy | Rename | Presign) as k =>
          λ a w, outcome_of k (methods k p a w)
      end a
  end.

(** The arguments a sub-operation hands to the method of its operation,
    and the reply of that method as the reply of the sub-operation: for
    each of the nine single operations both are the identity (no
    sub-operation is a Batch). *)
Definition sub_to_args (o : Operation) : SubArgs o → Args o :=
  match o with
  | Batch => λ a, match a with end
  | (Read | Write | Stat | Delete | List | Scan | Copy | Rename | Presign) as k =>
      λ a, a
  end.

Definition reply_to_sub (o : Operation) : SubArgs o → Reply o → SubReply o :=
  match o with
  | Batch => λ a _, match a with end
  | (Read | Write | Stat | Delete | List | Scan | Copy | Rename | Presign) as k =>
      λ _ reply, reply
  end.

(** Modelled from the spec: the batch algorithm of section 4.5, which
    executes "each sub-operation via the same accessor's own typed
    operation methods" and "assembles the ordered-reply aggregate",
    "continuing to execute subsequent sub-operations after an individual
    failure".  Each outcome, reply or error, is recorded at its position
    and execution goes on with the next sub-operation, in the state the
    previous one left. *)
Fixpoint run_batch (methods : ∀ o, Handler o) (subs : list SubOp) (w : World)
  : list Outcome * World :=
  match subs with
  | [] => ([], w)
  | s :: rest =>
      let r := exec_sub methods s w in
      let rs := run_batch methods rest r.2 in
      (r.1 :: rs.1, rs.2)
  end.

(** Modelled from the spec: the Batch method this algorithm gives; its
    reply is the sequence of outcomes, a failed sub-operation being an
    entry of the reply and not a failure of the batch. *)
Definition default_batch (methods : ∀ o, Handler o) : Handler Batch :=
  λ _ subs w,
    let rs := run_batch methods subs w in
    (Ok {| results := rs.1 |}, rs.2).

(** An accessor whose Batch is this algorithm over its own methods. *)
Definition batch_by_parts (acc : Accessor) : Prop :=
  ∀ (p : Path) (subs : list SubOp) (w : World),
    call acc Batch p subs w = default_batch (call acc) p subs w.

(** The operations a batch asks for; a call of a single operation asks
    for no sub-operation. *)
Definition batch_operations (subs : list SubOp) : list Operation :=
  sub_operation <$> subs.

Definition requested_operations (o : Operation) : Args o → list Operation :=
  match o with
  | Batch => batch_operations
  | (Read | Write | Stat | Delete | List | Scan | Copy | Rename | Presign) as k =>
      λ _, []
  end.

(** Modelled from the spec: a single operation of the layered accessor,
    "looks up the override record first and falls back to calling the
    inner accessor's method when absent". *)
Definition own_method (l : Layer) (inner : Accessor) (o : Operation) : Handler o :=
  match override l o with
  | Some replacement => replacement inner
  | None => call inner o
  end.

(** Modelled from the spec: the base forwarding behaviour of section 4.5.
    For each operation it "by default calls the corresponding method on the
    inner accessor with the arguments unchanged and returns its reply
    unchanged"; for Batch specifically it "executes each sub-operation via
    the same accessor's own typed operation methods (so overrides on
    individual operations are automatically honored inside a batch)". *)
Definition base_forwarding (l : Layer) (inner : Accessor) (o : Operation) : Handler o :=
  match o with
  | Batch => default_batch (own_method l inner)
  | (Read | Write | Stat | Delete | List | Scan | Copy | Rename | Presign) as k =>
      call inner k
  end.

(** Modelled from the spec: the accessor a layer produces ([LayeredAccessor]
    in the side bar, the "layered accessor that forward all not implemented
    method to inner"): an overridden operation is the layer's replacement,
    any other keeps the base forwarding behaviour. *)
Definition layered (l : Layer) (inner : Accessor) : Accessor :=
  {| info := merge (layer_descriptor l) (info inner);
     call := λ o,
       match override l o with
       | Some replacement => replacement inner
       | None => base_forwarding l inner o
       end |}.

(** Modelled from the spec: the accessor chain, "one backend instance
    wrapped by zero or more layer-produced accessors (in application order,
    outermost first)". *)
Definition compose (layers : list Layer) (backend : Accessor) : Accessor :=
  foldr layered backend layers.

End Protocol.

Arguments Accessor World : clear implicits.
Arguments Layer World : clear implicits.
Arguments Method World A : clear implicits.
Arguments Handler World o : clear implicits.

(** ** An in-memory backend and two layers

    Section 8 of the design document tests the protocol against "a
    deterministic in-memory backend".  The backend below is such a store,
    a finite map from paths to contents; it serves as the concrete
    accessor of the examples. *)

Abbreviation Store := (gmap Path string).

Definition failure (k : ErrorKind) (p : Path) : Error :=
  {| kind := k; message := p |}.

Definition entry_metadata (content : string) : Metadata :=
  {| content_length := N.of_nat (String.length content);
     last_modified := None;
     content_type := None;
     etag := None;
     mode := FILE |}.

Definition entries_under (p : Path) (w : Store) : list (Path * Metadata) :=
  (λ kv, (kv.1, entry_metadata kv.2))
    <$> map_to_list (filter (λ kv, String.prefix p kv.1 = true) w).

(** Modelled from the spec: the memory backend of the end-to-end scenario
    ("Write a/b.txt with content hi, then Stat returns size 2; Delete;
    subsequent Stat returns NotFound").  It has no byte-range reads and no
    presign; what the scenario leaves open is fixed in the simplest way. *)
Definition memory_read : Handler Store Read :=
  λ p a w,
    match byte_range a, w !! p with
    | Some _, _ => (Err (failure Unsupported p), w)
    | None, Some c =>
        (Ok {| read_metadata := entry_metadata c;
               read_stream := if metadata_only a then "" else c |}, w)
    | None, None => (Err (failure NotFound p), w)
    end.

Definition memory_write : Handler Store Write :=
  λ p a w, (Ok {| write_etag := None |}, <[p := body a]> w).

Definition memory_stat : Handler Store Stat :=
  λ p _ w,
    match w !! p with
    | Some c => (Ok {| stat_metadata := entry_metadata c |}, w)
    | None => (Err (failure NotFound p), w)
    end.

Definition memory_delete : Handler Store Delete :=
  λ p _ w, (Ok {| delete_etag := None |}, delete p w).

Definition memory_list : Handler Store List :=
  λ p _ w, (Ok {| list_entries := entries_under p w |}, w).

Definition memory_scan : Handler Store Scan :=
  λ p _ w, (Ok {| scan_entries := entries_under p w |}, w).

Definition memory_copy : Handler Store Copy :=
  λ p a w,
    match w !! p with
    | Some c => (Ok {| copy_etag := None |}, <[destination a := c]> w)
    | None => (Err (failure NotFound p), w)
    end.

Definition memory_rename : Handler Store Rename :=
  λ p a w,
    match w !! p with
    | Some c => (Ok {| rename_etag := None |}, <[destination a := c]> (delete p w))
    | None => (Err (failure NotFound p), w)
    end.

Definition memory_presign : Handler Store Presign :=
  λ p _ w, (Err (failure Unsupported p), w).

Definition memory_methods (batch : Handler Store Batch) (o : Operation) : Handler Store o :=
  match o with
  | Read => memory_read
  | Write => memory_write
  | Stat => memory_stat
  | Delete => memory_delete
  | List => memory_list
  | Scan => memory_scan
  | Copy => memory_copy
  | Rename => memory_rename
  | Presign => memory_presign
  | Batch => batch
  end.

(** The backend's native batch runs its own single operations in order. *)
Definition memory_batch : Handler Store Batch :=
  default_batch (memory_methods (λ p _ w, (Err (failure Unsupported p), w))).

Definition memory_info : Capability :=
  {| implemented := list_to_set all_operations;
     supported := list_to_set [Read; Write; Stat; Delete; List; Scan; Copy; Rename; Batch];
     variants := ∅;
     max_batch_size := None;
     presign_supported := false |}.

Definition memory : Accessor Store :=
  {| info := memory_info; call := memory_methods memory_batch |}.

(** A layer that overrides nothing. *)
Definition transparent_layer : Layer Store :=
  {| declared := forwarding_only; override := λ _, None |}.

(** A layer that makes the store read-only: it declares the mutating
    operations unsupported and fails them fast, without forwarding.  It
    overrides nothing else, Batch included. *)
Definition refuse (o : Operation) : Accessor Store → Handler Store o :=
  λ _ p _ w, (Err (failure Unsupported p), w).

Definition read_only_layer : Layer Store :=
  {| declared := forwarding_only;
     override := λ o,
       match o with
       | Write => Some (refuse Write)
       | Delete => Some (refuse Delete)
       | Copy => Some (refuse Copy)
       | Rename => Some (refuse Rename)
       | _ => None
       end |}.

(** Sub-operations of the examples. *)
Definition sub_write (p : Path) (content : string) : SubOp :=
  {| sub_operation := Write; sub_path := p;
     sub_args := {| size_hint := N.of_nat (String.length content);
                    write_content_type := None; body := content |} |}.

Definition sub_stat (p : Path) : SubOp :=
  {| sub_operation := Stat; sub_path := p; sub_args := tt |}.

Definition sub_delete (p : Path) : SubOp :=
  {| sub_operation := Delete; sub_path := p; sub_args := tt |}.

(** The scenarios of section 8: the content "hi", a batch of five
    sub-operations around a Stat of a missing path, and a store holding one
    entry. *)
Definition hi : WriteArgs :=
  {| size_hint := 2; write_content_type := None; body := "hi" |}.

Definition five_subs_before : list SubOp :=
  [sub_write "a/b.txt" "hi"; sub_stat "a/b.txt"].

Definition five_subs_after : list SubOp :=
  [sub_delete "a/b.txt"; sub_stat "a/b.txt"].

Definition one_entry : Store := {[ "a"%string := "hi"%string ]}.

(** * Properties of the script *)

(** ** The record *)

Lemma sidebar_category_keys :
  (object_props SIDEBAR_ITEMS).*1
  = ["constant"; "enum"; "fn"; "mod"; "struct"; "trait"; "type"].
Proof. reflexivity. Qed.

Lemma get_prop_sidebar (c : string) (v : JsValue) :
  (c, v) ∈ object_props SIDEBAR_ITEMS → get_prop c SIDEBAR_ITEMS = Some v.
Proof.
  intros Hin. simpl in Hin.
  repeat (apply elem_of_cons in Hin as [Heq | Hin];
          [injection Heq as -> ->; reflexivity |]).
  by apply elem_of_nil in Hin.
Qed.

(** C9: the record has the seven categories constant, enum, fn, mod,
    struct, trait and type, in this order; the value of each is an array of
    [[name, description]] pairs of strings whose names are nonempty,
    pairwise distinct and in ascending lexicographic order. *)
Theorem sidebar_categories_well_formed :
  (object_props SIDEBAR_ITEMS).*1
  = ["constant"; "enum"; "fn"; "mod"; "struct"; "trait"; "type"]
  ∧ Forall (λ kv, well_formed_category kv.2) (object_props SIDEBAR_ITEMS).
Proof.
  split; [apply sidebar_category_keys |].
  unfold SIDEBAR_ITEMS, object_props.
  repeat apply Forall_cons_2; try apply Forall_nil_2.
  all: (eexists; split; [reflexivity |]; split_and!).
  all: compute_done.
Qed.

(** ** The assignment *)

Lemma script_other_properties (window : Window) (k : string) :
  k ≠ "SIDEBAR_ITEMS" → script window !! k = window !! k.
Proof. intros Hk. unfold script. by rewrite lookup_insert_ne. Qed.

Lemma script_idempotent (window : Window) : script (script window) = script window.
Proof. unfold script. apply insert_insert_eq. Qed.

(** C10: evaluating the script assigns the literal record to the property
    [SIDEBAR_ITEMS] of [window] and changes no other property (the window
    without that property is the same before and after); the assigned value
    does not depend on the window the script starts from, so any two
    evaluations assign the same value. *)
Theorem script_single_effect (window : Window) :
  script window !! "SIDEBAR_ITEMS" = Some SIDEBAR_ITEMS
  ∧ delete "SIDEBAR_ITEMS" (script window) = delete "SIDEBAR_ITEMS" window
  ∧ ∀ window' : Window,
      script window !! "SIDEBAR_ITEMS" = script window' !! "SIDEBAR_ITEMS".
Proof.
  unfold script. split_and!.
  - apply lookup_insert_eq.
  - apply delete_insert_eq.
  - intros window'. by rewrite !lookup_insert_eq.
Qed.

(** ** Operations and reply structs *)

Lemma all_operations_complete (o : Operation) : o ∈ all_operations.
Proof. destruct o; compute_done. Qed.

Lemma all_operations_NoDup : NoDup all_operations.
Proof. compute_done. Qed.

Lemma reply_struct_inj : Inj (=) (=) reply_struct.
Proof. intros o1 o2 Heq. destruct o1, o2; first [reflexivity | discriminate Heq]. Qed.

Lemma reply_structs_NoDup : NoDup reply_structs.
Proof. compute_done. Qed.

Lemma reply_structs_eq :
  reply_structs
  = ["RpBatch"; "RpCopy"; "RpCreate"; "RpDelete"; "RpList"; "RpPresign";
     "RpRead"; "RpRename"; "RpScan"; "RpStat"; "RpWrite"].
Proof. reflexivity. Qed.

(** C1, as stated, fails on the record: [RpCreate] is a declared reply
    struct and no tag among the ten has it as its reply, nor does the
    operation its description names ([create]) belong to any tag. *)
Lemma RpCreate_has_no_tag :
  ("RpCreate", "Reply for `create` operation") ∈ reply_entries
  ∧ (∀ o, reply_struct o ≠ "RpCreate")
  ∧ (∀ o, Some (method_name o) ≠ described_operation "Reply for `create` operation").
Proof.
  split_and!.
  - compute_done.
  - intros o. destruct o; discriminate.
  - intros o. destruct o; discriminate.
Qed.

(** C1 (amended): there are exactly the ten tags Read, Write, Stat,
    Delete, List, Scan, Copy, Rename, Presign and Batch, and every declared
    reply struct other than [RpCreate] is the reply of one of them, its
    description naming that operation; [RpCreate] is described as the reply
    of [create], which is none of the ten. *)
Theorem reply_structs_cover_tags :
  (∀ o, o ∈ all_operations) ∧ NoDup all_operations ∧ length all_operations = 10
  ∧ Forall (λ e,
        (∃ o, e.1 = reply_struct o ∧ described_operation e.2 = Some (method_name o))
        ∨ (e.1 = "RpCreate" ∧ described_operation e.2 = Some "create"
           ∧ ∀ o, method_name o ≠ "create"))
      reply_entries.
Proof.
  split_and!; [apply all_operations_complete | apply all_operations_NoDup | reflexivity |].
  assert (Hnone : ∀ o, method_name o ≠ "create") by (intros []; discriminate).
  change reply_entries with
    (filter (λ e : string * string, is_reply_name e.1) (category "struct")).
  vm_compute filter.
  repeat apply Forall_cons_2; try apply Forall_nil_2.
  3: { right. by split_and!. }
  all: left.
  - by exists Batch.
  - by exists Copy.
  - by exists Delete.
  - by exists List.
  - by exists Presign.
  - by exists Read.
  - by exists Rename.
  - by exists Scan.
  - by exists Stat.
  - by exists Write.
Qed.

(** C2, as stated, fails on the record: the module declares eleven reply
    structs, so no assignment of a reply struct to each of the ten tags
    reaches all of them. *)
Lemma no_pairing_onto_reply_structs :
  ¬ ∃ f : Operation → string, ∀ n, n ∈ reply_structs → ∃ o, f o = n.
Proof.
  intros [f Hf].
  assert (Hsub : reply_structs ⊆+ f <$> all_operations).
  { apply NoDup_submseteq; [apply reply_structs_NoDup |].
    intros n Hn. destruct (Hf n Hn) as [o <-].
    apply list_elem_of_fmap. exists o. split; [reflexivity | apply all_operations_complete]. }
  apply submseteq_length in Hsub.
  rewrite length_fmap in Hsub. vm_compute in Hsub. lia.
Qed.

(** C2 (amended): [reply_struct] pairs the ten tags one-to-one with ten of
    the declared reply structs, each named [Rp] followed by its tag; the
    declared reply structs are exactly these ten and [RpCreate]. *)
Theorem reply_struct_pairing :
  Inj (=) (=) reply_struct
  ∧ Forall (λ o, reply_struct o ∈ reply_structs) all_operations
  ∧ NoDup reply_structs
  ∧ reply_structs ≡ₚ "RpCreate" :: (reply_struct <$> all_operations).
Proof.
  split_and!.
  - apply reply_struct_inj.
  - compute_done.
  - apply reply_structs_NoDup.
  - compute_done.
Qed.

(** ** The script among other writes to [window] *)

(** X1: the window after the script depends on the window before only
    through the properties other than [SIDEBAR_ITEMS]: two windows give the
    same result exactly when they agree once that property is removed.  So
    running the script twice is running it once, and whatever an earlier
    script stored (or did not store) under [SIDEBAR_ITEMS] is replaced. *)
Theorem script_forgets_previous_value (window window' : Window) :
  (script window = script window'
   ↔ delete "SIDEBAR_ITEMS" window = delete "SIDEBAR_ITEMS" window')
  ∧ script (script window) = script window
  ∧ (∀ earlier : JsValue,
       script (<["SIDEBAR_ITEMS" := earlier]> window) = script window)
  ∧ script (delete "SIDEBAR_ITEMS" window) = script window.
Proof.
  unfold script. split_and!.
  - split; intros Heq.
    + apply (f_equal (delete "SIDEBAR_ITEMS")) in Heq.
      by rewrite !delete_insert_eq in Heq.
    + rewrite <- (insert_delete_eq window), <- (insert_delete_eq window').
      by rewrite Heq.
  - apply insert_insert_eq.
  - intros earlier. apply insert_insert_eq.
  - apply insert_delete_eq.
Qed.

(** X2: the script commutes with any write to, and any removal of, a
    property other than [SIDEBAR_ITEMS]: it makes no difference whether
    another script sets its own global before or after this one runs. *)
Theorem script_commutes_with_other_writes (window : Window) (k : string) (v : JsValue) :
  k ≠ "SIDEBAR_ITEMS" →
  script (<[k := v]> window) = <[k := v]> (script window)
  ∧ script (delete k window) = delete k (script window).
Proof.
  intros Hk. unfold script. split.
  - by apply insert_insert_ne.
  - symmetry. by apply delete_insert_ne.
Qed.

Lemma script_commutes_with_other_writes_witness :
  "searchIndex" ≠ "SIDEBAR_ITEMS"
  ∧ script (<["searchIndex" := JsArray []]> ∅)
    = <["searchIndex" := JsArray []]> (script ∅)
  ∧ script (delete "searchIndex" (<["searchIndex" := JsArray []]> ∅))
    = delete "searchIndex" (script (<["searchIndex" := JsArray []]> ∅)).
Proof.
  assert (Hk : "searchIndex" ≠ "SIDEBAR_ITEMS") by discriminate.
  split; [exact Hk |].
  split.
  - exact (proj1 (script_commutes_with_other_writes ∅ "searchIndex" (JsArray []) Hk)).
  - exact (proj2 (script_commutes_with_other_writes
                    (<["searchIndex" := JsArray []]> ∅) "searchIndex" (JsArray []) Hk)).
Defined.

(** X3: the script removes no property of [window] and adds at most one:
    the properties afterwards are those before together with
    [SIDEBAR_ITEMS], so their number grows by one when the property was
    absent and stays the same when it was there. *)
Theorem script_properties (window : Window) :
  dom (script window) = {[ "SIDEBAR_ITEMS" ]} ∪ dom window
  ∧ dom window ⊆ dom (script window)
  ∧ size (script window)
    = (if window !! "SIDEBAR_ITEMS" is Some _ then size window else S (size window)).
Proof.
  unfold script.
  assert (Hdom : dom (<["SIDEBAR_ITEMS" := SIDEBAR_ITEMS]> window)
                 = {[ "SIDEBAR_ITEMS" ]} ∪ dom window) by apply dom_insert_L.
  split_and!.
  - exact Hdom.
  - rewrite Hdom. apply union_subseteq_r.
  - rewrite map_size_insert. by destruct (window !! "SIDEBAR_ITEMS").
Qed.

(** ** Reading the record back *)

Lemma get_prop_sidebar_missing (c : string) :
  c ∉ (object_props SIDEBAR_ITEMS).*1 → get_prop c SIDEBAR_ITEMS = None.
Proof.
  intros Hc. simpl in Hc. unfold SIDEBAR_ITEMS, get_prop, get_prop_in.
  repeat case_decide; first [reflexivity | subst c; exfalso; apply Hc; compute_done].
Qed.

Lemma category_sidebar (c : string) (v : JsValue) :
  (c, v) ∈ object_props SIDEBAR_ITEMS →
  as_entries v = Some (category c) ∧ category c ≠ [].
Proof.
  intros Hin. simpl in Hin.
  repeat (apply elem_of_cons in Hin as [Heq | Hin];
          [injection Heq as -> ->; split; [reflexivity | discriminate] |]).
  by apply elem_of_nil in Hin.
Qed.

(** X4: after the script, whatever the window was, the record stored
    under [SIDEBAR_ITEMS] has exactly the seven category names as its own
    properties: an own-property read gives a value exactly for them, and
    that value is a nonempty array of [[name, description]] pairs (the
    entries [category] returns); no other name is an own property of the
    record, and [category] is empty there.  (Names inherited from
    [Object.prototype] are not own properties.) *)
Theorem sidebar_read_back (window : Window) (c : string) :
  match (script window !! "SIDEBAR_ITEMS") ≫= get_prop c with
  | Some v =>
      c ∈ ["constant"; "enum"; "fn"; "mod"; "struct"; "trait"; "type"]
      ∧ as_entries v = Some (category c)
      ∧ category c ≠ []
  | None =>
      (c ∉ ["constant"; "enum"; "fn"; "mod"; "struct"; "trait"; "type"])
      ∧ category c = []
  end.
Proof.
  unfold script. rewrite lookup_insert_eq.
  change (Some SIDEBAR_ITEMS ≫= get_prop c) with (get_prop c SIDEBAR_ITEMS).
  rewrite <- sidebar_category_keys.
  destruct (decide (c ∈ (object_props SIDEBAR_ITEMS).*1)) as [Hin | Hout].
  - apply list_elem_of_fmap in Hin as ([c' v] & Hc & Hin).
    simpl in Hc. subst c'.
    rewrite (get_prop_sidebar c v Hin).
    split; [| by apply category_sidebar].
    apply list_elem_of_fmap. by exists (c, v).
  - unfold category. rewrite (get_prop_sidebar_missing c Hout). by split.
Qed.

(** X5: taken over all seven categories together, the record lists 62
    items; every name is a Rust identifier (ASCII letters, digits and
    underscores, not starting with a digit), no name is used twice, not
    even in different categories, and every description is nonempty. *)
Theorem sidebar_names_are_identifiers :
  length all_items = 62
  ∧ Forall (λ it, is_identifier it.2.1 = true ∧ it.2.2 ≠ "") all_items
  ∧ NoDup (fst ∘ snd <$> all_items).
Proof.
  split; [reflexivity |].
  split; [| compute_done].
  apply Forall_forall. intros it Hit.
  revert it Hit. apply Forall_forall. compute_done.
Qed.

(** * Properties of the protocol *)

(** ** Capability merge *)

Lemma capability_eq (a b : Capability) :
  implemented a = implemented b →
  supported a = supported b →
  variants a = variants b →
  max_batch_size a = max_batch_size b →
  presign_supported a = presign_supported b →
  a = b.
Proof. destruct a, b; simpl; intros; by subst. Qed.

Lemma supports_merge (outer inner : Capability) (o : Operation) :
  supports (merge outer inner) o
  = if implements outer o then supports outer o else supports inner o.
Proof.
  unfold supports, implements, merge; simpl.
  destruct (decide (o ∈ implemented outer)) as [Hin | Hout].
  - rewrite (bool_decide_eq_true_2 (o ∈ implemented outer)) by done.
    apply bool_decide_ext. set_solver.
  - rewrite (bool_decide_eq_false_2 (o ∈ implemented outer)) by done.
    apply bool_decide_ext. set_solver.
Qed.

Lemma variant_supported_merge (outer inner : Capability) (o : Operation) (v : Variant) :
  variant_supported (merge outer inner) o v
  = if implements outer o then variant_supported outer o v
    else variant_supported inner o v.
Proof.
  unfold variant_supported, implements, merge; simpl.
  destruct (decide (o ∈ implemented outer)) as [Hin | Hout].
  - rewrite (bool_decide_eq_true_2 (o ∈ implemented outer)) by done.
    apply bool_decide_ext. set_solver.
  - rewrite (bool_decide_eq_false_2 (o ∈ implemented outer)) by done.
    apply bool_decide_ext. set_solver.
Qed.

Lemma merge_assoc (a b c : Capability) :
  merge a (merge b c) = merge (merge a b) c.
Proof.
  apply capability_eq; unfold merge; simpl.
  - set_solver.
  - set_solver.
  - apply set_eq. intros [o v].
    set_unfold. simpl. rewrite !elem_of_union. tauto.
  - repeat case_decide; first [reflexivity | set_solver].
  - repeat case_decide; first [reflexivity | set_solver].
Qed.

Lemma merge_forwarding_only (d : Capability) : merge forwarding_only d = d.
Proof.
  apply capability_eq; unfold merge, forwarding_only; simpl.
  - set_solver.
  - set_solver.
  - apply set_eq. intros [o v]. set_unfold. simpl. rewrite elem_of_empty. tauto.
  - case_decide; [set_solver | reflexivity].
  - case_decide; [set_solver | reflexivity].
Qed.

Lemma merge_chain_app (outer inner : list Capability) (backend : Capability) :
  merge_chain (outer ++ inner) backend = merge_chain outer (merge_chain inner backend).
Proof. unfold merge_chain. apply foldr_app. Qed.

Lemma merge_chain_all (layers : list Capability) (backend : Capability) :
  merge_chain layers backend = merge (merge_all layers) backend.
Proof.
  unfold merge_chain, merge_all.
  induction layers as [| l layers IH]; simpl.
  - symmetry. apply merge_forwarding_only.
  - rewrite IH. apply merge_assoc.
Qed.

Lemma info_compose {World : Type} (layers : list (Layer World)) (backend : Accessor World) :
  info (compose layers backend)
  = merge_chain (layer_descriptor <$> layers) (info backend).
Proof.
  unfold compose, merge_chain.
  induction layers as [| l layers IH]; simpl; [reflexivity |].
  by rewrite IH.
Qed.

Lemma elem_of_overridden {World : Type} (l : Layer World) (o : Operation) :
  o ∈ overridden l ↔ is_Some (override l o).
Proof.
  unfold overridden. rewrite elem_of_list_to_set, list_elem_of_filter.
  split; [by intros [Hov _] | intros Hov].
  split; [exact Hov | apply all_operations_complete].
Qed.

(** The merge rule, read on a layered accessor: an overridden operation
    answers as the layer declared, a forwarded one as the inner accessor
    does. *)
Lemma supports_layered {World : Type} (l : Layer World) (inner : Accessor World)
    (o : Operation) :
  supports (info (layered l inner)) o
  = if override l o is Some _ then supports (declared l) o else supports (info inner) o.
Proof.
  simpl. rewrite supports_merge. unfold implements. simpl.
  destruct (override l o) as [replacement |] eqn:Hov.
  - rewrite bool_decide_eq_true_2; [reflexivity |].
    apply elem_of_overridden. by rewrite Hov.
  - rewrite bool_decide_eq_false_2; [reflexivity |].
    rewrite elem_of_overridden, Hov. by intros [? ?].
Qed.

(** C5: in a merged descriptor the answer for an operation (and for each
    of its variants) is the outer layer's own declaration when the layer
    implements the operation and the inner accessor's answer otherwise;
    merge is associative; and for any chain of layers, merging the layers'
    descriptors all at once and then over the backend gives the descriptor
    obtained by merging one layer at a time, which is the descriptor of the
    composed accessor.  On a layered accessor the rule reads: an operation
    the layer overrides answers as the layer declared, any other as the
    inner accessor does. *)
Theorem merge_policy_associative :
  (∀ (outer inner : Capability) (o : Operation),
      supports (merge outer inner) o
      = if implements outer o then supports outer o else supports inner o)
  ∧ (∀ (outer inner : Capability) (o : Operation) (v : Variant),
      variant_supported (merge outer inner) o v
      = if implements outer o then variant_supported outer o v
        else variant_supported inner o v)
  ∧ (∀ a b c : Capability, merge a (merge b c) = merge (merge a b) c)
  ∧ (∀ (layers : list Capability) (backend : Capability),
      merge_chain layers backend = merge (merge_all layers) backend)
  ∧ (∀ (World : Type) (layers : list (Layer World)) (backend : Accessor World),
      info (compose layers backend)
      = merge (merge_all (layer_descriptor <$> layers)) (info backend))
  ∧ (∀ (World : Type) (l : Layer World) (inner : Accessor World) (o : Operation),
      supports (info (layered l inner)) o
      = if override l o is Some _ then supports (declared l) o else supports (info inner) o).
Proof.
  split_and!.
  - apply supports_merge.
  - apply variant_supported_merge.
  - apply merge_assoc.
  - apply merge_chain_all.
  - intros World layers backend. rewrite info_compose. apply merge_chain_all.
  - intros World. apply supports_layered.
Qed.

(** Section 8, "capability merge correctness", on the read-only layer
    over the memory backend: what the layer overrides answers as the layer
    declared, what it forwards answers as the backend does. *)
Example read_only_capabilities :
  let c := info (layered read_only_layer memory) in
  supports c Write = false ∧ supports c Delete = false
  ∧ supports c Batch = true
  ∧ supports c Read = supports (info memory) Read
  ∧ supports c Presign = supports (info memory) Presign.
Proof. cbv zeta. split_and!; vm_compute; reflexivity. Qed.

(** ** Forwarding and batches *)

Local Close Scope string_scope.

Section Forwarding.
Context {World : Type}.
Implicit Types (l : Layer World) (inner backend acc : Accessor World).
Implicit Types (methods : ∀ o, Handler World o) (subs pre post : list SubOp) (w : World).

Lemma call_overridden l inner o (replacement : Accessor World → Handler World o) :
  override l o = Some replacement → call (layered l inner) o = replacement inner.
Proof. intros Hov. simpl. by rewrite Hov. Qed.

(** A single operation of a layered accessor is the override when there is
    one and the inner accessor's method otherwise. *)
Lemma call_single l inner o :
  o ≠ Batch → call (layered l inner) o = own_method l inner o.
Proof.
  intros Hsingle. unfold own_method. simpl.
  destruct (override l o) as [replacement |]; [reflexivity |].
  by destruct o.
Qed.

Lemma call_forwarded l inner o :
  override l o = None → o ≠ Batch → call (layered l inner) o = call inner o.
Proof.
  intros Hov Hsingle. rewrite (call_single l inner o Hsingle).
  unfold own_method. by rewrite Hov.
Qed.

Lemma call_default_batch l inner :
  override l Batch = None →
  call (layered l inner) Batch = default_batch (own_method l inner).
Proof. intros Hov. simpl. by rewrite Hov. Qed.

(** Through a whole chain: when no layer overrides a single operation, the
    chain's method is the backend's. *)
Lemma compose_transparent (layers : list (Layer World)) backend (o : Operation) :
  o ≠ Batch →
  Forall (λ l, override l o = None) layers →
  call (compose layers backend) o = call backend o.
Proof.
  intros Hsingle Hnone. unfold compose.
  induction Hnone as [| l layers Hl _ IH]; simpl; [reflexivity |].
  rewrite <- IH. by apply call_forwarded.
Qed.

Lemma compose_app (outer rest : list (Layer World)) backend :
  compose (outer ++ rest) backend = compose outer (compose rest backend).
Proof. unfold compose. apply foldr_app. Qed.

(** The outermost layer that overrides a single operation decides it. *)
Lemma compose_outermost_override (outer : list (Layer World)) l
    (rest : list (Layer World)) backend (o : Operation)
    (replacement : Accessor World → Handler World o) :
  o ≠ Batch →
  Forall (λ l', override l' o = None) outer →
  override l o = Some replacement →
  call (compose (outer ++ l :: rest) backend) o
  = replacement (compose rest backend).
Proof.
  intros Hsingle Hnone Hov.
  rewrite compose_app, (compose_transparent outer _ o Hsingle Hnone). simpl.
  by rewrite Hov.
Qed.

(** A sub-operation only reaches the method of its own operation. *)
Lemma exec_sub_ext methods methods' (s : SubOp) :
  methods (sub_operation s) = methods' (sub_operation s) →
  exec_sub methods s = exec_sub methods' s.
Proof.
  destruct s as [o p a]; simpl. intros Hagree.
  destruct o; simpl; try (by rewrite Hagree); destruct a.
Qed.

(** What a sub-operation records: the reply its method returned, tagged
    with the operation, or the error its method returned; and the state
    its method left. *)
Lemma exec_sub_method methods (k : Operation) (q : Path) (a : SubArgs k) w :
  exec_sub methods {| sub_operation := k; sub_path := q; sub_args := a |} w
  = (match (methods k q (sub_to_args k a) w).1 with
     | Ok reply => Ok (Replied k (reply_to_sub k a reply))
     | Err e => Err e
     end,
     (methods k q (sub_to_args k a) w).2).
Proof.
  destruct k; simpl; try (by destruct a).
  all: unfold outcome_of.
  all: match goal with
       | |- context [match ?call with pair _ _ => _ end] =>
           by destruct call as [[r | e] w']
       end.
Qed.

Lemma run_batch_ext methods methods' subs w :
  Forall (λ o, methods o = methods' o) (batch_operations subs) →
  run_batch methods subs w = run_batch methods' subs w.
Proof.
  unfold batch_operations. revert w.
  induction subs as [| s rest IH]; intros w Hagree; simpl; [reflexivity |].
  apply Forall_cons in Hagree as [Hs Hrest].
  by rewrite (exec_sub_ext methods methods' s Hs), IH.
Qed.

Lemma batch_operations_single subs : Forall (λ o, o ≠ Batch) (batch_operations subs).
Proof.
  unfold batch_operations. apply Forall_fmap, Forall_forall.
  intros [o p a] _; simpl. by destruct o; [.. | destruct a].
Qed.

Lemma run_batch_length methods subs w :
  length (run_batch methods subs w).1 = length subs.
Proof.
  revert w. induction subs as [| s rest IH]; intros w; simpl; [reflexivity |].
  by rewrite IH.
Qed.

Lemma run_batch_cons methods (s : SubOp) subs w :
  run_batch methods (s :: subs) w
  = ((exec_sub methods s w).1 :: (run_batch methods subs (exec_sub methods s w).2).1,
     (run_batch methods subs (exec_sub methods s w).2).2).
Proof. reflexivity. Qed.

Lemma run_batch_app methods pre post w :
  run_batch methods (pre ++ post) w
  = ((run_batch methods pre w).1
       ++ (run_batch methods post (run_batch methods pre w).2).1,
     (run_batch methods post (run_batch methods pre w).2).2).
Proof.
  revert w. induction pre as [| s rest IH]; intros w; simpl.
  - by destruct (run_batch methods post w).
  - by rewrite IH.
Qed.

(** A layered accessor that does not override Batch runs a batch through
    its own methods, overrides included. *)
Lemma layered_batch_by_parts l inner :
  override l Batch = None → batch_by_parts (layered l inner).
Proof.
  intros Hbatch p subs w.
  rewrite (call_default_batch l inner Hbatch). unfold default_batch.
  rewrite (run_batch_ext (own_method l inner) (call (layered l inner))); [reflexivity |].
  eapply Forall_impl; [apply batch_operations_single |].
  intros o Ho. symmetry. by apply call_single.
Qed.

(** C6: when a layer does not override Batch, a batch on the layered
    accessor replies with one outcome per sub-operation, in request order.
    For any split of the request around a sub-operation of operation [k]
    at path [q] with arguments [a]: the reply is the outcomes of the batch
    of the sub-operations before it, then what the accessor's own method
    [k] returned for [q] and [a] in the state they left (the reply, tagged
    with [k], when it succeeded, the error when it failed), then the
    outcomes of the batch of the sub-operations after it, run in the state
    that method left.  Whether the method succeeded or failed, the rest is
    still executed; the empty batch replies with no outcome and changes
    nothing. *)
Theorem batch_ordered_partial_failure l inner (p : Path) pre
    (k : Operation) (q : Path) (a : SubArgs k) post w :
  override l Batch = None →
  let acc := layered l inner in
  let s := {| sub_operation := k; sub_path := q; sub_args := a |} in
  let before := call acc Batch p pre w in
  let here := call acc k q (sub_to_args k a) before.2 in
  let after := call acc Batch p post here.2 in
  ∃ outcomes_before outcomes_after : list Outcome,
    before.1 = Ok {| results := outcomes_before |}
    ∧ length outcomes_before = length pre
    ∧ after.1 = Ok {| results := outcomes_after |}
    ∧ length outcomes_after = length post
    ∧ call acc Batch p (pre ++ s :: post) w
      = (Ok {| results :=
                 outcomes_before
                 ++ match here.1 with
                    | Ok reply => Ok (Replied k (reply_to_sub k a reply))
                    | Err e => Err e
                    end
                 :: outcomes_after |},
         after.2)
    ∧ call acc Batch p [] w = (Ok {| results := [] |}, w).
Proof.
  intros Hbatch acc s before here after.
  assert (Hparts : batch_by_parts acc) by (by apply layered_batch_by_parts).
  assert (Hbefore : before
                    = (Ok {| results := (run_batch (call acc) pre w).1 |},
                       (run_batch (call acc) pre w).2)) by apply Hparts.
  assert (Hafter : after
                   = (Ok {| results := (run_batch (call acc) post here.2).1 |},
                      (run_batch (call acc) post here.2).2)) by apply Hparts.
  exists (run_batch (call acc) pre w).1, (run_batch (call acc) post here.2).1.
  split_and!.
  - by rewrite Hbefore.
  - apply run_batch_length.
  - by rewrite Hafter.
  - apply run_batch_length.
  - rewrite Hparts. unfold default_batch.
    rewrite run_batch_app, run_batch_cons. unfold s. rewrite exec_sub_method.
    rewrite Hafter. unfold here. rewrite Hbefore. reflexivity.
  - by rewrite Hparts.
Qed.

(** C4 (amended): for every operation that a layer does not override, and
    for all arguments, the layered accessor answers exactly as the inner
    accessor does, same reply or error and same resulting state, provided,
    when the operation is Batch, that the layer overrides none of the
    operations the batch asks for and that the inner accessor itself runs a
    batch sub-operation by sub-operation through its own methods.  (For a
    single operation the two provisos are empty.) *)
Theorem forwarding_transparent l inner (o : Operation) (p : Path) (a : Args o) w :
  override l o = None →
  Forall (λ o', override l o' = None) (requested_operations o a) →
  (o = Batch → batch_by_parts inner) →
  call (layered l inner) o p a w = call inner o p a w.
Proof.
  intros Hov Hsubs Hparts.
  destruct (decide (o = Batch)) as [-> | Hsingle].
  - rewrite (call_default_batch l inner Hov), (Hparts eq_refl).
    unfold default_batch. simpl in Hsubs.
    rewrite (run_batch_ext (own_method l inner) (call inner)); [reflexivity |].
    eapply Forall_impl; [exact Hsubs |].
    intros o' Ho'. unfold own_method. by rewrite Ho'.
  - by rewrite (call_forwarded l inner o Hov Hsingle).
Qed.

(** Inside a batch an override is honoured: a sub-operation of an
    overridden operation is answered by the layer's replacement. *)
Lemma batch_honours_override l inner (p q : Path) (k : Operation) (a : SubArgs k)
    (replacement : Accessor World → Handler World k) w :
  override l Batch = None →
  override l k = Some replacement →
  call (layered l inner) Batch p
    [{| sub_operation := k; sub_path := q; sub_args := a |}] w
  = (Ok {| results :=
             [match (replacement inner q (sub_to_args k a) w).1 with
              | Ok reply => Ok (Replied k (reply_to_sub k a reply))
              | Err e => Err e
              end] |},
     (replacement inner q (sub_to_args k a) w).2).
Proof.
  intros Hbatch Hov.
  rewrite (layered_batch_by_parts l inner Hbatch). unfold default_batch.
  rewrite run_batch_cons, exec_sub_method.
  by rewrite (call_overridden l inner k replacement Hov).
Qed.

End Forwarding.

(** ** The memory backend under the two layers *)

Lemma memory_batch_by_parts : batch_by_parts memory.
Proof.
  intros p subs w. simpl. unfold memory_batch, default_batch.
  rewrite (run_batch_ext _ (memory_methods memory_batch)); [reflexivity |].
  eapply Forall_impl; [apply batch_operations_single |].
  intros o Ho. by destruct o.
Qed.

(** Section 8's end-to-end scenario on the bare backend: Write "a/b.txt"
    with content "hi", then Stat returns size 2; Delete; a further Stat
    returns NotFound. *)
Example memory_scenario :
  let w1 := (call memory Write "a/b.txt"%string hi ∅).2 in
  let w2 := (call memory Delete "a/b.txt"%string tt w1).2 in
  (call memory Stat "a/b.txt"%string tt w1).1
  = Ok {| stat_metadata := entry_metadata "hi" |}
  ∧ content_length (entry_metadata "hi") = 2%N
  ∧ (call memory Stat "a/b.txt"%string tt w2).1
    = Err (failure NotFound "a/b.txt").
Proof. cbv zeta. split_and!; vm_compute; reflexivity. Qed.

(** Section 8's batch scenario, through a layer that overrides nothing:
    five sub-operations, the third (a Stat of a missing path) fails; the
    reply has five outcomes, the third is the classified failure, and the
    fourth and fifth were executed (the Delete took effect, so the last
    Stat finds nothing). *)
Lemma batch_ordered_partial_failure_witness :
  override transparent_layer Batch = None
  ∧ ∃ (outcomes : list Outcome) (w' : Store),
      call (layered transparent_layer memory) Batch ""%string
        (five_subs_before ++ sub_stat "missing" :: five_subs_after) ∅
      = (Ok {| results := outcomes |}, w')
      ∧ length outcomes = 5
      ∧ outcomes !! 1 = Some (Ok (Replied Stat {| stat_metadata := entry_metadata "hi" |}))
      ∧ outcomes !! 2 = Some (Err (failure NotFound "missing"))
      ∧ outcomes !! 3 = Some (Ok (Replied Delete {| delete_etag := None |}))
      ∧ outcomes !! 4 = Some (Err (failure NotFound "a/b.txt"))
      ∧ w' !! "a/b.txt"%string = None.
Proof.
  split; [reflexivity |].
  destruct (batch_ordered_partial_failure transparent_layer memory ""%string
              five_subs_before Stat "missing"%string tt five_subs_after ∅ eq_refl)
    as (before & after & Hbefore & _ & Hafter & _ & Hreply & _).
  vm_compute in Hbefore. injection Hbefore as <-.
  vm_compute in Hafter. injection Hafter as <-.
  eexists _, _. split; [exact Hreply |].
  split_and!; vm_compute; reflexivity.
Defined.

(** A batch of two Stats through the read-only layer, which overrides
    neither Batch nor Stat, is the backend's batch. *)
Lemma forwarding_transparent_witness :
  override read_only_layer Batch = None
  ∧ Forall (λ o, override read_only_layer o = None)
      (requested_operations Batch [sub_stat "a"; sub_stat "missing"])
  ∧ batch_by_parts memory
  ∧ call (layered read_only_layer memory) Batch ""%string
      [sub_stat "a"; sub_stat "missing"] one_entry
    = call memory Batch ""%string [sub_stat "a"; sub_stat "missing"] one_entry
  ∧ call memory Batch ""%string [sub_stat "a"; sub_stat "missing"] one_entry
    = (Ok {| results :=
               [Ok (Replied Stat {| stat_metadata := entry_metadata "hi" |});
                Err (failure NotFound "missing")] |},
       one_entry).
Proof.
  assert (Hsubs : Forall (λ o, override read_only_layer o = None)
                    (requested_operations Batch [sub_stat "a"; sub_stat "missing"]))
    by (repeat constructor).
  split; [reflexivity |]. split; [exact Hsubs |].
  split; [exact memory_batch_by_parts |].
  split; [| vm_compute; reflexivity].
  exact (forwarding_transparent read_only_layer memory Batch ""%string
           [sub_stat "a"; sub_stat "missing"] one_entry
           eq_refl Hsubs (λ _, memory_batch_by_parts)).
Defined.

(** C4, as stated, fails for Batch: the read-only layer does not override
    Batch, yet a batch holding a Delete replies differently on the layered
    accessor (the Delete is refused by the layer's override, the entry
    stays) and on the backend (the Delete succeeds, the entry is gone). *)
Lemma batch_forwarding_not_transparent :
  override read_only_layer Batch = None
  ∧ call (layered read_only_layer memory) Batch ""%string [sub_delete "a"] one_entry
    = (Ok {| results := [Err (failure Unsupported "a")] |}, one_entry)
  ∧ call memory Batch ""%string [sub_delete "a"] one_entry
    = (Ok {| results := [Ok (Replied Delete {| delete_etag := None |})] |}, ∅)
  ∧ call (layered read_only_layer memory) Batch ""%string [sub_delete "a"] one_entry
    ≠ call memory Batch ""%string [sub_delete "a"] one_entry.
Proof.
  split; [reflexivity |].
  assert (Hlayered :
    call (layered read_only_layer memory) Batch ""%string [sub_delete "a"] one_entry
    = (Ok {| results := [Err (failure Unsupported "a")] |}, one_entry))
    by (vm_compute; reflexivity).
  assert (Hmemory :
    call memory Batch ""%string [sub_delete "a"] one_entry
    = (Ok {| results := [Ok (Replied Delete {| delete_etag := None |})] |}, ∅))
    by (vm_compute; reflexivity).
  split; [exact Hlayered |]. split; [exact Hmemory |].
  rewrite Hlayered, Hmemory. intros Heq. discriminate Heq.
Qed.
